(** * Event scheduler of go-mysql-server: registry, running set, definer parsing

    A shallow embedding of package [eventscheduler] (the enabled-events list,
    the running-events status maps, definer parsing and the two catalog
    reconciliation functions), with the properties of its specification
    stated over the embedding. *)

From Stdlib Require Import ZArith Ascii String Bool Lia.
From stdpp Require Import base option list gmap strings fin_maps.

Local Open Scope string_scope.

(** ** Go strings

    A Go string is a sequence of bytes; [string] is a sequence of 8-bit
    [ascii], so indices and lengths agree. *)

Module GoStrings.

(** [s[lo:]] *)
Fixpoint from (lo : nat) (s : string) : string :=
  match lo, s with
  | O, _ => s
  | S n, String _ s' => from n s'
  | S _, EmptyString => EmptyString
  end.

(** [s[:hi]] *)
Fixpoint upto (hi : nat) (s : string) : string :=
  match hi, s with
  | O, _ => EmptyString
  | S n, String c s' => String c (upto n s')
  | S _, EmptyString => EmptyString
  end.

(** [strings.HasPrefix(s, prefix)]:
    [len(s) >= len(prefix) && s[:len(prefix)] == prefix]. *)
Definition HasPrefix (s pre : string) : bool :=
  (String.length pre <=? String.length s)%nat
  && String.eqb (upto (String.length pre) s) pre.

(** [strings.HasSuffix(s, suffix)]:
    [len(s) >= len(suffix) && s[len(s)-len(suffix):] == suffix]. *)
Definition HasSuffix (s suf : string) : bool :=
  (String.length suf <=? String.length s)%nat
  && String.eqb (from (String.length s - String.length suf) s) suf.

(** [strings.TrimPrefix]: drops [prefix] once when [s] starts with it. *)
Definition TrimPrefix (s pre : string) : string :=
  if HasPrefix s pre then from (String.length pre) s else s.

(** [strings.TrimSuffix]: drops [suffix] once when [s] ends with it. *)
Definition TrimSuffix (s suf : string) : string :=
  if HasSuffix s suf then upto (String.length s - String.length suf) s else s.

(** [strings.Count(s, sep)] for a one-byte separator. *)
Fixpoint Count (s : string) (sep : ascii) : nat :=
  match s with
  | EmptyString => 0
  | String c s' => (if Ascii.eqb c sep then 1 else 0) + Count s' sep
  end.

(** [strings.Split(s, sep)] for a one-byte separator: the substrings
    between consecutive occurrences of [sep], [Count(s, sep) + 1] of
    them, in order. *)
Fixpoint Split (s : string) (sep : ascii) : list string :=
  match s with
  | EmptyString => [EmptyString]
  | String c s' =>
      if Ascii.eqb c sep then EmptyString :: Split s' sep
      else match Split s' sep with
           | piece :: rest => String c piece :: rest
           | [] => [String c EmptyString]
           end
  end.

End GoStrings.

Import GoStrings.

(** ** Results of fallible calls *)

(** A Go [error] value, identified by its message. *)
Definition error := string.

Inductive result (A : Type) : Type :=
| Ok (a : A)
| Err (e : error).
Arguments Ok {A} a.
Arguments Err {A} e.

(** ** Definer parsing *)

Definition backtick : string := String (ascii_of_nat 96) EmptyString.
Definition squote : string := "'".
Definition at_sign : ascii := ascii_of_nat 64.

(** The two trimming lines applied to each half of the definer:
    [TrimSuffix(TrimPrefix(x, "`"), "`")] and then the same with ['].  *)
Definition trimQuotes (x : string) : string :=
  let y := TrimSuffix (TrimPrefix x backtick) backtick in
  TrimSuffix (TrimPrefix y squote) squote.

Definition getUsernameAndAddressFromDefiner (definer : string)
  : result (string * string) :=
  let ua := Split definer at_sign in
  match ua with
  | [u; a] => Ok (trimQuotes u, trimQuotes a)
  | _ => Err "invalid definer for the event"
  end.




(** ** Wall-clock time

    A [time.Time] is modelled by its instant, in nanoseconds counted from
    the zero [Time]; a [time.Duration] is an [int64] count of
    nanoseconds. *)

Definition Time := Z.
Definition Duration := Z.

Definition minDuration : Duration := (- 2 ^ 63)%Z.
Definition maxDuration : Duration := (2 ^ 63 - 1)%Z.
Definition Second : Duration := 1000000000%Z.

(** [t.Sub(u)]: the difference [t - u], saturated to the range of
    [Duration]. *)
Definition Sub (t u : Time) : Duration :=
  let d := (t - u)%Z in
  if (d <? minDuration)%Z then minDuration
  else if (maxDuration <? d)%Z then maxDuration
  else d.

(** [d.Seconds() < 1].  [Seconds] returns
    [float64(d / Second) + float64(d % Second) / 1e9]; the sum is at least 1
    when [d >= Second], at most 0 when [d <= 0], and [d / 1e9] rounded,
    which stays below 1, in between.  So the comparison is exactly
    [d < Second] on the integer count. *)
Definition Seconds_lt_1 (d : Duration) : bool := (d <? Second)%Z.

(** ** The sort package: [sort.SliceStable]

    The standard library's stable sort over an index-based [Less]/[Swap]
    pair ([stable_func] and its helpers): insertion sort on blocks of 20
    elements, then [symMerge] passes that double the block size.  The slice
    being sorted is the list; [Less] and [Swap] address it by index. *)

Module GoSort.
Section Sorting.
Context {A : Type}.
Variable less : A -> A -> bool.

(** [data.Less(i, j)]: the caller's closure applied to the current
    contents of the slice.  The sort only passes indices inside the
    slice. *)
Definition Less (l : list A) (i j : nat) : bool :=
  match l !! i, l !! j with
  | Some x, Some y => less x y
  | _, _ => false
  end.

(** [data.Swap(i, j)] *)
Definition Swap (l : list A) (i j : nat) : list A :=
  match l !! i, l !! j with
  | Some x, Some y => <[j := x]> (<[i := y]> l)
  | _, _ => l
  end.

(** [for k := k0; k < k0 + count; k++ { body(k) }] *)
Fixpoint for_up (k0 count : nat) (body : nat -> list A -> list A)
    (l : list A) : list A :=
  match count with
  | O => l
  | S c => for_up (S k0) c body (body k0 l)
  end.

(** [for k := hi; k > lo; k-- { body(k) }] *)
Fixpoint for_down (hi lo : nat) (body : nat -> list A -> list A)
    (l : list A) : list A :=
  match hi with
  | O => l
  | S h => if (lo <? hi)%nat then for_down h lo body (body hi l) else l
  end.

(** The inner loop of insertion sort:
    [for j := i; j > a && data.Less(j, j-1); j-- { data.Swap(j, j-1) }] *)
Fixpoint sift_down (a j : nat) (l : list A) : list A :=
  match j with
  | O => l
  | S j' =>
      if (a <? j)%nat && Less l j j'
      then sift_down a j' (Swap l j j')
      else l
  end.

(** [insertionSort_func(data, a, b)] *)
Definition insertionSort_func (a b : nat) (l : list A) : list A :=
  for_up (a + 1) (b - (a + 1)) (sift_down a) l.

(** [swapRange_func(data, a, b, n)] *)
Definition swapRange_func (a b n : nat) (l : list A) : list A :=
  for_up 0 n (fun i l' => Swap l' (a + i) (b + i)) l.

(** The loop of [rotate_func] on the pair [(i, j)]; each round lowers
    [i + j], which bounds [fuel]. *)
Fixpoint rotate_loop (fuel m i j : nat) (l : list A) : nat * list A :=
  match fuel with
  | O => (i, l)
  | S f =>
      if (i =? j)%nat then (i, l)
      else if (j <? i)%nat
           then rotate_loop f m (i - j) j (swapRange_func (m - i) m j l)
           else rotate_loop f m i (j - i)
                  (swapRange_func (m - i) (m + j - i) i l)
  end.

(** [rotate_func(data, a, m, b)] *)
Definition rotate_func (a m b : nat) (l : list A) : list A :=
  let '(i, l') := rotate_loop (b - a + 1) m (m - a) (b - m) l in
  swapRange_func (m - i) m i l'.

(** A binary search loop [for i < j { h := (i+j)/2; if go_right(h)
    { i = h + 1 } else { j = h } }], returning the final [i]. *)
Fixpoint bsearch (fuel : nat) (go_right : nat -> bool) (i j : nat) : nat :=
  match fuel with
  | O => i
  | S f =>
      if (i <? j)%nat then
        let h := ((i + j) / 2)%nat in
        if go_right h then bsearch f go_right (h + 1) j
        else bsearch f go_right i h
      else i
  end.

(** [symMerge_func(data, a, m, b)]; the two recursive calls are on
    strictly shorter ranges, so [fuel = b - a] is enough. *)
Fixpoint symMerge_func (fuel a m b : nat) (l : list A) : list A :=
  match fuel with
  | O => l
  | S f =>
      if (m - a =? 1)%nat then
        let i := bsearch (b - m) (fun h => Less l h a) m b in
        for_up a (i - 1 - a) (fun k l' => Swap l' k (k + 1)) l
      else if (b - m =? 1)%nat then
        let i := bsearch (m - a) (fun h => negb (Less l m h)) a m in
        for_down m i (fun k l' => Swap l' k (k - 1)) l
      else
        let mid := ((a + b) / 2)%nat in
        let n := (mid + m)%nat in
        let '(start0, r0) :=
          if (mid <? m)%nat then ((n - b)%nat, mid) else (a, m) in
        let p := (n - 1)%nat in
        let start :=
          bsearch (r0 - start0) (fun c => negb (Less l (p - c) c)) start0 r0 in
        let end_ := (n - start)%nat in
        let l1 :=
          if (start <? m)%nat && (m <? end_)%nat
          then rotate_func start m end_ l else l in
        let l2 :=
          if (a <? start)%nat && (start <? mid)%nat
          then symMerge_func f a start mid l1 else l1 in
        if (mid <? end_)%nat && (end_ <? b)%nat
        then symMerge_func f mid end_ b l2 else l2
  end.

(** First phase of [stable_func]:
    [for b <= n { insertionSort(a, b); a = b; b += blockSize }],
    then [insertionSort(a, n)]. *)
Fixpoint sort_blocks (fuel blockSize a b n : nat) (l : list A) : list A :=
  match fuel with
  | O => insertionSort_func a n l
  | S f =>
      if (b <=? n)%nat
      then sort_blocks f blockSize b (b + blockSize) n (insertionSort_func a b l)
      else insertionSort_func a n l
  end.

(** One merging pass of [stable_func] at a given [blockSize]. *)
Fixpoint merge_pass (fuel blockSize a b n : nat) (l : list A) : list A :=
  match fuel with
  | O => l
  | S f =>
      if (b <=? n)%nat
      then merge_pass f blockSize b (b + 2 * blockSize) n
             (symMerge_func (b - a) a (a + blockSize) b l)
      else
        let m := (a + blockSize)%nat in
        if (m <? n)%nat then symMerge_func (n - a) a m n l else l
  end.

(** Second phase: [for blockSize < n { pass; blockSize *= 2 }]. *)
Fixpoint merge_passes (fuel blockSize n : nat) (l : list A) : list A :=
  match fuel with
  | O => l
  | S f =>
      if (blockSize <? n)%nat
      then merge_passes f (2 * blockSize) n
             (merge_pass n blockSize 0 (2 * blockSize) n l)
      else l
  end.

(** [stable_func(data, n)] *)
Definition stable_func (n : nat) (l : list A) : list A :=
  let blockSize := 20%nat in
  let l1 := sort_blocks n blockSize 0 blockSize n l in
  merge_passes n blockSize n l1.

(** [sort.SliceStable(x, less)] *)
Definition SliceStable (l : list A) : list A := stable_func (length l) l.

End Sorting.
End GoSort.

(** ** Events *)

(** [sql.EventDatabase] is an interface; an [enabledEvent] holds a handle on
    the database that owns it, of which the scheduler reads [Name()]. *)
Record EventDatabase : Type := { Name : string }.

(** The fields of [sql.EventDetails] that the scheduler reads or writes. *)
Record EventDetails : Type := {
  ed_Name : string;
  Definer : string;
  Status : string;
  HasExecuteAt : bool;
  OnCompletionPreserve : bool;
  LastExecuted : Time
}.

Record enabledEvent : Type := {
  edb : EventDatabase;
  eventDetails : EventDetails;
  nextExecutionAt : Time;
  username : string;
  address : string
}.

(** [fmt.Sprintf("%s.%s", e.edb.Name(), e.eventDetails.Name)] *)
Definition name (e : enabledEvent) : string :=
  Name (edb e) ++ "." ++ ed_Name (eventDetails e).

(** ** enabledEventsList

    The slice [eventsList]; the mutex only serialises the calls, each of
    which is a function of the list. *)

Module enabledEventsList.

(** The closure handed to [sort.SliceStable]:
    [list[i].nextExecutionAt.Sub(list[j].nextExecutionAt).Seconds() < 1] *)
Definition less (x y : enabledEvent) : bool :=
  Seconds_lt_1 (Sub (nextExecutionAt x) (nextExecutionAt y)).

Definition newEnabledEventsList (events : list enabledEvent)
  : list enabledEvent :=
  GoSort.SliceStable less events.

Definition clear (l : list enabledEvent) : list enabledEvent := [].

Definition len (l : list enabledEvent) : nat := length l.

(** [(time.Time{}, false)] on the empty list; the zero [Time] is shown
    as [0]. *)
Definition getNextExecutionTime (l : list enabledEvent) : Time * bool :=
  match l with
  | [] => (0%Z, false)
  | e :: _ => (nextExecutionAt e, true)
  end.

(** Returns the first element ([nil] on the empty list) and the rest. *)
Definition pop (l : list enabledEvent)
  : option enabledEvent * list enabledEvent :=
  match l with
  | [] => (None, [])
  | firstInList :: rest => (Some firstInList, rest)
  end.

Definition add (l : list enabledEvent) (event : enabledEvent)
  : list enabledEvent :=
  GoSort.SliceStable less (l ++ [event]).

(** The loop returns at the first [i] with [e.name() == key], after
    cutting that element out. *)
Fixpoint remove (l : list enabledEvent) (key : string)
  : list enabledEvent :=
  match l with
  | [] => []
  | e :: rest =>
      if String.eqb (name e) key then rest else e :: remove rest key
  end.

(** The slice as [removeSchemaEvents] sees it while it runs: the backing
    array shared by the [range] snapshot and by [l.eventsList], and the
    current length of [l.eventsList]. *)
Record slice : Type := { backing : list enabledEvent; cur_len : nat }.

(** [l.eventsList = append(l.eventsList[:i], l.eventsList[i+1:]...)].
    [l.eventsList[i+1:]] panics when [i+1 > len(l.eventsList)]
    ([None]).  Otherwise the elements after [i] move one place down
    inside the backing array, whose old last place keeps its value, and
    the length drops by one. *)
Definition cut (i : nat) (s : slice) : option slice :=
  if (i + 1 <=? cur_len s)%nat then
    Some {| backing :=
              take i (backing s)
              ++ take (cur_len s - (i + 1)) (drop (i + 1) (backing s))
              ++ drop (cur_len s - 1) (backing s);
            cur_len := cur_len s - 1 |}
  else None.

(** [for i, e := range l.eventsList { if e.edb.Name() == dbName { cut } }]
    from index [i], with [todo] iterations left.  The range runs over
    the length the slice had when the loop started and reads [e] from
    the backing array at each step. *)
Fixpoint range_from (dbName : string) (i todo : nat) (s : slice)
  : option slice :=
  match todo with
  | O => Some s
  | S todo' =>
      match backing s !! i with
      | Some e =>
          if String.eqb (Name (edb e)) dbName then
            match cut i s with
            | Some s' => range_from dbName (S i) todo' s'
            | None => None
            end
          else range_from dbName (S i) todo' s
      | None => None
      end
  end.

(** [None] is a run-time panic (slice bounds out of range). *)
Definition removeSchemaEvents (l : list enabledEvent) (dbName : string)
  : option (list enabledEvent) :=
  match range_from dbName 0 (length l)
          {| backing := l; cur_len := length l |} with
  | Some s => Some (take (cur_len s) (backing s))
  | None => None
  end.

End enabledEventsList.

(** ** runningEventsStatus *)

(** Reading a Go map with the comma-ok form: the zero value and [false]
    for a missing key. *)
Definition map_get (m : gmap string bool) (key : string) : bool * bool :=
  match m !! key with
  | Some v => (v, true)
  | None => (false, false)
  end.

(** The keys a [for k := range m] loop visits.  Go leaves the order
    unspecified; the loops below do not depend on it. *)
Definition map_keys (m : gmap string bool) : list string :=
  (map_to_list m).*1.

Module runningEventsStatus.

Record t : Type := {
  status : gmap string bool;
  reAdd : gmap string bool
}.

Definition newRunningEventsStatus : t :=
  {| status := ∅; reAdd := ∅ |}.

(** Both loops delete from [r.status]; the second one ranges over the
    keys of [r.reAdd]. *)
Definition clear (r : t) : t :=
  let status1 := foldl (fun m k => delete k m) (status r) (map_keys (status r)) in
  let status2 := foldl (fun m k => delete k m) status1 (map_keys (reAdd r)) in
  {| status := status2; reAdd := reAdd r |}.

Definition update (r : t) (key : string) (status_ reAdd_ : bool) : t :=
  {| status := <[key := status_]> (status r);
     reAdd := <[key := reAdd_]> (reAdd r) |}.

Definition remove (r : t) (key : string) : t :=
  {| status := delete key (status r); reAdd := reAdd r |}.

Definition getStatus (r : t) (key : string) : bool * bool :=
  map_get (status r) key.

Definition getReAdd (r : t) (key : string) : bool * bool :=
  map_get (reAdd r) key.

(** The body of the loop of [removeSchemaEvents] for one key. *)
Definition removeSchemaEvents_step (dbName : string) (r : t)
    (evId : string) : t :=
  if HasPrefix evId (dbName ++ ".") then
    {| status := <[evId := fst (map_get (status r) evId)]> (status r);
       reAdd := <[evId := false]> (reAdd r) |}
  else r.

(** The loop over an enumeration [keys] of [r.status]. *)
Definition removeSchemaEvents_over (keys : list string) (r : t)
    (dbName : string) : t :=
  foldl (removeSchemaEvents_step dbName) r keys.

Definition removeSchemaEvents (r : t) (dbName : string) : t :=
  removeSchemaEvents_over (map_keys (status r)) r dbName.

End runningEventsStatus.

(** ** Reconciliation with the catalog

    The catalog behind an [sql.EventDatabase] is explicit state of type
    [catalog].  The methods of package [sql] that the two functions call
    are parameters: [UpdateEvent] and [DropEvent] return the new catalog and
    their error, [GetNextExecutionTime] the triple of the Go method; the
    two status strings are those of [EventStatus_Enable.String()] and
    [EventStatus_Disable.String()]. *)

Section Catalog.
Variable catalog : Type.
Variable UpdateEvent :
  EventDatabase -> string -> EventDetails -> catalog -> catalog * option error.
Variable DropEvent :
  EventDatabase -> string -> catalog -> catalog * option error.
Variable GetNextExecutionTime :
  EventDetails -> Time -> Time * bool * option error.
Variable EventStatus_Enable EventStatus_Disable : string.

Definition set_Status (ed : EventDetails) (s : string) : EventDetails :=
  {| ed_Name := ed_Name ed; Definer := Definer ed; Status := s;
     HasExecuteAt := HasExecuteAt ed;
     OnCompletionPreserve := OnCompletionPreserve ed;
     LastExecuted := LastExecuted ed |}.

Definition set_LastExecuted (ed : EventDetails) (t : Time) : EventDetails :=
  {| ed_Name := ed_Name ed; Definer := Definer ed; Status := Status ed;
     HasExecuteAt := HasExecuteAt ed;
     OnCompletionPreserve := OnCompletionPreserve ed;
     LastExecuted := t |}.

Definition set_eventDetails (e : enabledEvent) (ed : EventDetails)
  : enabledEvent :=
  {| edb := edb e; eventDetails := ed;
     nextExecutionAt := nextExecutionAt e;
     username := username e; address := address e |}.

Definition set_nextExecutionAt (e : enabledEvent) (t : Time)
  : enabledEvent :=
  {| edb := edb e; eventDetails := eventDetails e;
     nextExecutionAt := t;
     username := username e; address := address e |}.

(** Returns the event pointer ([None] for [nil]), the flag, the error,
    and the catalog after the call. *)
Definition newEnabledEventFromEventDetails (c : catalog)
    (db : EventDatabase) (ed : EventDetails) (curTime : Time)
  : option enabledEvent * bool * option error * catalog :=
  if String.eqb (Status ed) EventStatus_Enable then
    let '(nextExecution, eventEnded, err) :=
      GetNextExecutionTime ed curTime in
    match err with
    | Some err' => (None, false, Some err', c)
    | None =>
        if negb eventEnded then
          match getUsernameAndAddressFromDefiner (Definer ed) with
          | Err err' => (None, false, Some err', c)
          | Ok (username_, address_) =>
              (Some {| edb := db; eventDetails := ed;
                       nextExecutionAt := nextExecution;
                       username := username_; address := address_ |},
               true, None, c)
          end
        else if OnCompletionPreserve ed then
          let ed' := set_Status ed EventStatus_Disable in
          let '(c', err1) := UpdateEvent db (ed_Name ed') ed' c in
          match err1 with
          | Some err' => (None, false, Some err', c')
          | None => (None, false, None, c')
          end
        else
          let '(c', err1) := DropEvent db (ed_Name ed) c in
          match err1 with
          | Some err' => (None, false, Some err', c')
          | None => (None, false, None, c')
          end
    end
  else (None, false, None, c).

(** The receiver [e] is updated in place, so it is returned with the
    result; [now] is the reading of [time.Now()]. *)
Definition updateEventAfterExecution (e : enabledEvent) (c : catalog)
    (db : EventDatabase) (executionTime now : Time)
  : enabledEvent * (bool * option error) * catalog :=
  let '(nextExecutionAt_, ended, err) :=
    if HasExecuteAt (eventDetails e) then (0%Z, true, None)
    else GetNextExecutionTime (eventDetails e) now in
  match err with
  | Some err' => (e, (ended, Some err'), c)
  | None =>
      let after_status :=
        if ended then
          if OnCompletionPreserve (eventDetails e)
          then inl (set_eventDetails e
                      (set_Status (eventDetails e) EventStatus_Disable))
          else inr tt
        else inl (set_nextExecutionAt e nextExecutionAt_) in
      match after_status with
      | inr _ =>
          let '(c', err1) := DropEvent db (ed_Name (eventDetails e)) c in
          match err1 with
          | Some err' => (e, (ended, Some err'), c')
          | None => (e, (true, None), c')
          end
      | inl e1 =>
          let e2 := set_eventDetails e1
                      (set_LastExecuted (eventDetails e1) executionTime) in
          let '(c', err1) :=
            UpdateEvent db (ed_Name (eventDetails e2)) (eventDetails e2) c in
          match err1 with
          | Some err' => (e2, (ended, Some err'), c')
          | None => (e2, (ended, None), c')
          end
      end
  end.

(** The definition that [updateEventAfterExecution] hands to [UpdateEvent]
    for an event that has ended and is preserved: the status line and the
    [LastExecuted] line applied to the event's details. *)
Definition preserved_details (e : enabledEvent) (executionTime : Time)
  : EventDetails :=
  set_LastExecuted (set_Status (eventDetails e) EventStatus_Disable)
    executionTime.

End Catalog.

(** A concrete catalog for examples: the definitions by event name;
    [UpdateEvent] on a missing event and [DropEvent] on a missing event
    report an error. *)
Module MemCatalog.

Definition catalog := gmap string EventDetails.

Definition UpdateEvent (db : EventDatabase) (nm : string)
    (ed : EventDetails) (c : catalog) : catalog * option error :=
  match c !! nm with
  | Some _ => (<[ed_Name ed := ed]> (delete nm c), None)
  | None => (c, Some "event does not exist")
  end.

Definition DropEvent (db : EventDatabase) (nm : string) (c : catalog)
  : catalog * option error :=
  match c !! nm with
  | Some _ => (delete nm c, None)
  | None => (c, Some "event does not exist")
  end.

(** A schedule that never ends and fires one second after [now]. *)
Definition GetNextExecutionTime (ed : EventDetails) (now : Time)
  : Time * bool * option error :=
  ((now + Second)%Z, false, None).

End MemCatalog.

(** ** Sample events *)

Module Samples.

(** A recurring event [evName] of database [dbName], defined by
    [root@localhost], due at [at_] nanoseconds. *)
Definition recurring (dbName evName : string) (at_ : Time) : enabledEvent :=
  {| edb := {| Name := dbName |};
     eventDetails := {| ed_Name := evName; Definer := "root@localhost";
                        Status := "ENABLE"; HasExecuteAt := false;
                        OnCompletionPreserve := false;
                        LastExecuted := 0%Z |};
     nextExecutionAt := at_;
     username := "root"; address := "localhost" |}.

(** The details of an enabled event with the given definer, one-shot and
    preserve flags. *)
Definition details (evName definer : string) (oneShot preserve : bool)
  : EventDetails :=
  {| ed_Name := evName; Definer := definer; Status := "ENABLE";
     HasExecuteAt := oneShot; OnCompletionPreserve := preserve;
     LastExecuted := 0%Z |}.

(** A one-shot event of database [mydb] built from [details]. *)
Definition one_shot (evName : string) (preserve : bool) (at_ : Time)
  : enabledEvent :=
  {| edb := {| Name := "mydb" |};
     eventDetails := details evName "root@localhost" true preserve;
     nextExecutionAt := at_;
     username := "root"; address := "localhost" |}.

End Samples.

(** ** Histories of calls on the running set *)

Module RunningOps.
Import runningEventsStatus.

Inductive op : Type :=
| Clear
| Update (key : string) (status_ reAdd_ : bool)
| Remove (key : string)
| RemoveSchemaEvents (dbName : string).

Definition apply (r : t) (o : op) : t :=
  match o with
  | Clear => clear r
  | Update key s ra => update r key s ra
  | Remove key => remove r key
  | RemoveSchemaEvents dbName => removeSchemaEvents r dbName
  end.

Definition run (r : t) (ops : list op) : t := foldl apply r ops.

End RunningOps.

(** ** Order of the registry *)

(** Non-decreasing [nextExecutionAt] from the head on. *)
Fixpoint ordered (l : list enabledEvent) : bool :=
  match l with
  | [] => true
  | e :: rest =>
      match rest with
      | [] => true
      | e' :: _ => (nextExecutionAt e <=? nextExecutionAt e')%Z && ordered rest
      end
  end.

(** ** Entries of other databases *)

(** [e] does not belong to database [dbName]. *)
Definition other_database (dbName : string) (e : enabledEvent) : Prop :=
  Name (edb e) <> dbName.

#[global] Instance other_database_dec dbName e :
  Decision (other_database dbName e).
Proof. unfold other_database. apply _. Defined.

(** Where the loop of [removeSchemaEvents] stands after [i] rounds on the
    list [L]: with [d] cuts made so far, the visible part already passed
    keeps, in order, every entry of another database among the first
    entries of [L], and every place from [i] on holds the entry of [L]
    that lies [d] places further, the last entry of [L] past the end. *)
Definition loop_invariant (L : list enabledEvent) (dbName : string)
    (i : nat) (s : enabledEventsList.slice) : Prop :=
  let n := length L in
  let B := enabledEventsList.backing s in
  let m := enabledEventsList.cur_len s in
  let d := (n - m)%nat in
  let p := Nat.min i m in
  length B = n /\ (m <= n)%nat /\
  sublist (take p B) (take (p + d) L) /\
  filter (other_database dbName) (take p B)
  = filter (other_database dbName) (take (p + d) L) /\
  forall j, (i <= j)%nat -> (j < n)%nat ->
            B !! j = L !! Nat.min (j + d) (n - 1).

(** * Properties *)

(** ** Go strings *)

Section StringFacts.

#[local] Arguments String.append !_ _ / : simpl nomatch.

Lemma append_nil_r (s : string) : s ++ "" = s.
Proof. induction s as [|c s IH]; simpl; [reflexivity | now rewrite IH]. Qed.

Lemma append_assoc (a b c : string) : (a ++ b) ++ c = a ++ (b ++ c).
Proof. induction a as [|x a IH]; simpl; [reflexivity | now rewrite IH]. Qed.

Lemma length_append (a b : string) :
  String.length (a ++ b) = (String.length a + String.length b)%nat.
Proof. induction a as [|x a IH]; simpl; [reflexivity | now rewrite IH]. Qed.

Lemma upto_append (a b : string) : upto (String.length a) (a ++ b) = a.
Proof. induction a as [|x a IH]; simpl; [now destruct b | now rewrite IH]. Qed.


Lemma HasPrefix_append (p s : string) : HasPrefix (p ++ s) p = true.
Proof.
  unfold HasPrefix. rewrite upto_append, String.eqb_refl, length_append.
  rewrite andb_true_r. apply Nat.leb_le. lia.
Qed.











Lemma Split_append (a b : string) (sep : ascii) :
  Count a sep = 0%nat ->
  Split (a ++ String sep b) sep = a :: Split b sep.
Proof.
  induction a as [|c a IH]; simpl; intros Ha.
  - now rewrite Ascii.eqb_refl.
  - destruct (Ascii.eqb c sep); [discriminate|].
    now rewrite (IH Ha).
Qed.

End StringFacts.

(** ** The sort only permutes

    Whatever the [less] closure answers, [sort.SliceStable] moves elements
    by [Swap] alone, so its result holds the elements it was given. *)

Section SortPermutes.
Import GoSort.
Context {A : Type} (less : A -> A -> bool).

Lemma Swap_perm (l : list A) (i j : nat) : Swap l i j ≡ₚ l.
Proof.
  unfold Swap.
  destruct (l !! i) as [x|] eqn:Hi; [|reflexivity].
  destruct (l !! j) as [y|] eqn:Hj; [|reflexivity].
  now apply Permutation_insert_swap.
Qed.

Lemma for_up_perm (body : nat -> list A -> list A) :
  (forall k l, body k l ≡ₚ l) ->
  forall count k0 l, for_up k0 count body l ≡ₚ l.
Proof.
  intros Hbody. induction count as [|c IH]; intros k0 l; cbn;
    [reflexivity|].
  now rewrite IH.
Qed.

Lemma for_down_perm (body : nat -> list A -> list A) :
  (forall k l, body k l ≡ₚ l) ->
  forall hi lo l, for_down hi lo body l ≡ₚ l.
Proof.
  intros Hbody. induction hi as [|h IH]; intros lo l; cbn -[Nat.ltb];
    [reflexivity|].
  destruct (lo <? S h)%nat; [|reflexivity].
  now rewrite IH.
Qed.

Lemma sift_down_perm (a j : nat) (l : list A) : sift_down less a j l ≡ₚ l.
Proof.
  revert l. induction j as [|j IH]; intros l; cbn -[Nat.ltb];
    [reflexivity|].
  destruct (_ && _); [|reflexivity].
  now rewrite IH, Swap_perm.
Qed.

Lemma insertionSort_perm (a b : nat) (l : list A) :
  insertionSort_func less a b l ≡ₚ l.
Proof.
  unfold insertionSort_func. apply for_up_perm.
  intros k l'. apply sift_down_perm.
Qed.

Lemma swapRange_perm (a b n : nat) (l : list A) :
  swapRange_func a b n l ≡ₚ l.
Proof.
  unfold swapRange_func. apply for_up_perm.
  intros k l'. apply Swap_perm.
Qed.

Lemma rotate_loop_perm (fuel m i j : nat) (l : list A) :
  snd (rotate_loop fuel m i j l) ≡ₚ l.
Proof.
  revert i j l. induction fuel as [|f IH]; intros i j l; cbn -[Nat.ltb];
    [reflexivity|].
  destruct (i =? j)%nat; [reflexivity|].
  destruct (j <? i)%nat; now rewrite IH, swapRange_perm.
Qed.

Lemma rotate_perm (a m b : nat) (l : list A) : rotate_func a m b l ≡ₚ l.
Proof.
  unfold rotate_func.
  pose proof (rotate_loop_perm (b - a + 1) m (m - a) (b - m) l) as Hloop.
  destruct (rotate_loop _ _ _ _ _) as [i l'].
  now rewrite swapRange_perm.
Qed.

Lemma symMerge_perm (fuel a m b : nat) (l : list A) :
  symMerge_func less fuel a m b l ≡ₚ l.
Proof.
  revert a m b l. induction fuel as [|f IH]; intros a m b l;
    [reflexivity|].
  cbn -[Nat.ltb Nat.eqb Nat.div].
  destruct (m - a =? 1)%nat.
  { apply for_up_perm. intros k l'. apply Swap_perm. }
  destruct (b - m =? 1)%nat.
  { apply for_down_perm. intros k l'. apply Swap_perm. }
  destruct (_ <? m)%nat;
    repeat (destruct (_ && _));
    rewrite ?IH, ?rotate_perm; reflexivity.
Qed.

Lemma sort_blocks_perm (fuel blockSize a b n : nat) (l : list A) :
  sort_blocks less fuel blockSize a b n l ≡ₚ l.
Proof.
  revert a b l. induction fuel as [|f IH]; intros a b l; cbn -[Nat.leb].
  - apply insertionSort_perm.
  - destruct (b <=? n)%nat; [|apply insertionSort_perm].
    now rewrite IH, insertionSort_perm.
Qed.

Lemma merge_pass_perm (fuel blockSize a b n : nat) (l : list A) :
  merge_pass less fuel blockSize a b n l ≡ₚ l.
Proof.
  revert a b l. induction fuel as [|f IH]; intros a b l;
    cbn -[Nat.leb Nat.ltb Nat.mul]; [reflexivity|].
  destruct (b <=? n)%nat.
  - now rewrite IH, symMerge_perm.
  - destruct (_ <? _)%nat; [apply symMerge_perm | reflexivity].
Qed.

Lemma merge_passes_perm (fuel blockSize n : nat) (l : list A) :
  merge_passes less fuel blockSize n l ≡ₚ l.
Proof.
  revert blockSize l. induction fuel as [|f IH]; intros blockSize l;
    cbn -[Nat.ltb Nat.mul]; [reflexivity|].
  destruct (_ <? _)%nat; [|reflexivity].
  now rewrite IH, merge_pass_perm.
Qed.

Lemma SliceStable_perm (l : list A) : SliceStable less l ≡ₚ l.
Proof.
  unfold SliceStable, stable_func.
  now rewrite merge_passes_perm, sort_blocks_perm.
Qed.

End SortPermutes.

(** ** Definer parsing *)

Section Definer.

#[local] Arguments String.append !_ _ / : simpl nomatch.




End Definer.




(** ** The running set *)

Section RunningSet.
Import runningEventsStatus.

Lemma elem_of_map_keys (m : gmap string bool) (k : string) :
  k ∈ map_keys m <-> is_Some (m !! k).
Proof.
  unfold map_keys. rewrite list_elem_of_fmap. split.
  - intros [[k' v] [Heq Hin]]. simpl in Heq. subst k'.
    rewrite elem_of_map_to_list in Hin. eauto.
  - intros [v Hv]. exists (k, v). split; [reflexivity|].
    now rewrite elem_of_map_to_list.
Qed.

Lemma map_get_Some (m : gmap string bool) (k : string) (v : bool) :
  m !! k = Some v -> map_get m k = (v, true).
Proof. unfold map_get. now intros ->. Qed.

Lemma map_get_None (m : gmap string bool) (k : string) :
  m !! k = None -> map_get m k = (false, false).
Proof. unfold map_get. now intros ->. Qed.

Lemma delete_all_lookup (ks : list string) (m : gmap string bool)
    (k : string) :
  foldl (fun m' k' => delete k' m') m ks !! k
  = if bool_decide (k ∈ ks) then None else m !! k.
Proof.
  revert m. induction ks as [|k0 ks IH]; intros m.
  - rewrite bool_decide_eq_false_2; [reflexivity | apply not_elem_of_nil].
  - cbn [foldl]. rewrite IH. destruct (decide (k = k0)) as [->|Hne].
    + rewrite lookup_delete_eq.
      rewrite (bool_decide_eq_true_2 (k0 ∈ k0 :: ks)) by left.
      now destruct (bool_decide (k0 ∈ ks)).
    + rewrite lookup_delete_ne by congruence.
      replace (bool_decide (k ∈ k0 :: ks)) with (bool_decide (k ∈ ks));
        [reflexivity|].
      apply bool_decide_ext. rewrite elem_of_cons. tauto.
Qed.

(** [clear] empties [status] and leaves [reAdd] as it was. *)
Lemma clear_effect (r : t) :
  status (clear r) = ∅ /\ reAdd (clear r) = reAdd r.
Proof.
  split; [|reflexivity]. apply map_eq. intros k.
  unfold clear. cbn [status]. rewrite lookup_empty, !delete_all_lookup.
  destruct (bool_decide (k ∈ map_keys (reAdd r))); [reflexivity|].
  destruct (status r !! k) eqn:Hk.
  - rewrite bool_decide_eq_true_2; [reflexivity|].
    apply elem_of_map_keys. rewrite Hk. eauto.
  - now destruct (bool_decide _).
Qed.

(** One round of the loop of [removeSchemaEvents] on a key of
    [status]: [status] is rewritten with its own value. *)
Lemma step_status (dbName : string) (r : t) (evId : string) :
  is_Some (status r !! evId) ->
  status (removeSchemaEvents_step dbName r evId) = status r.
Proof.
  intros [v Hv]. unfold removeSchemaEvents_step.
  destruct (HasPrefix evId (dbName ++ ".")); [|reflexivity].
  cbn [status]. rewrite (map_get_Some _ _ _ Hv). now apply insert_id.
Qed.

Lemma step_reAdd (dbName : string) (r : t) (evId k : string) :
  reAdd (removeSchemaEvents_step dbName r evId) !! k
  = if decide (k = evId) then
      if HasPrefix evId (dbName ++ ".") then Some false else reAdd r !! k
    else reAdd r !! k.
Proof.
  unfold removeSchemaEvents_step.
  destruct (HasPrefix evId (dbName ++ ".")); cbn [reAdd].
  - case_decide as H; [subst; apply lookup_insert_eq|].
    now apply lookup_insert_ne.
  - now case_decide.
Qed.

Lemma over_status (keys : list string) (r : t) (dbName : string) :
  (forall k, k ∈ keys -> is_Some (status r !! k)) ->
  status (removeSchemaEvents_over keys r dbName) = status r.
Proof.
  unfold removeSchemaEvents_over.
  revert r. induction keys as [|k0 keys IH]; intros r Hkeys; simpl;
    [reflexivity|].
  assert (H0 : is_Some (status r !! k0)) by (apply Hkeys; left).
  rewrite IH.
  - now apply step_status.
  - intros k Hk. rewrite step_status by exact H0. apply Hkeys. now right.
Qed.

Lemma over_reAdd (keys : list string) (r : t) (dbName k : string) :
  reAdd (removeSchemaEvents_over keys r dbName) !! k
  = if bool_decide (k ∈ keys) && HasPrefix k (dbName ++ ".")
    then Some false else reAdd r !! k.
Proof.
  unfold removeSchemaEvents_over.
  revert r. induction keys as [|k0 keys IH]; intros r; cbn [foldl].
  - rewrite bool_decide_eq_false_2; [reflexivity | apply not_elem_of_nil].
  - rewrite IH, step_reAdd.
    destruct (decide (k = k0)) as [->|Hne].
    + rewrite (bool_decide_eq_true_2 (k0 ∈ k0 :: keys)) by left.
      destruct (HasPrefix k0 (dbName ++ ".")); simpl;
        [now destruct (bool_decide (k0 ∈ keys)) | now rewrite andb_false_r].
    + replace (bool_decide (k ∈ k0 :: keys)) with (bool_decide (k ∈ keys));
        [reflexivity|].
      apply bool_decide_ext. rewrite elem_of_cons. tauto.
Qed.

(** What [removeSchemaEvents] does, in one equation per map: [status]
    is unchanged, and [reAdd] is set to [false] at the keys of [status]
    that start with [dbName + "."] and is unchanged elsewhere. *)
Lemma removeSchemaEvents_effect (r : t) (dbName : string) :
  status (removeSchemaEvents r dbName) = status r /\
  forall k,
    reAdd (removeSchemaEvents r dbName) !! k
    = if bool_decide (is_Some (status r !! k)) && HasPrefix k (dbName ++ ".")
      then Some false else reAdd r !! k.
Proof.
  unfold removeSchemaEvents. split.
  - apply over_status. intros k. apply elem_of_map_keys.
  - intros k. rewrite over_reAdd.
    replace (bool_decide (k ∈ map_keys (status r)))
      with (bool_decide (is_Some (status r !! k))); [reflexivity|].
    apply bool_decide_ext. symmetry. apply elem_of_map_keys.
Qed.

(** No call removes a key of [reAdd]. *)
Lemma apply_keeps_reAdd (r : t) (o : RunningOps.op) (k : string) :
  is_Some (reAdd r !! k) -> is_Some (reAdd (RunningOps.apply r o) !! k).
Proof.
  intros Hk. destruct o as [|key s ra|key|dbName]; simpl.
  - exact Hk.
  - cbn [update reAdd]. destruct (decide (key = k)) as [->|Hne].
    + rewrite lookup_insert_eq. eauto.
    + now rewrite lookup_insert_ne.
  - exact Hk.
  - destruct (removeSchemaEvents_effect r dbName) as [_ Hr]. rewrite Hr.
    destruct (_ && _); eauto.
Qed.

Lemma run_keeps_reAdd (ops : list RunningOps.op) (r : t) (k : string) :
  is_Some (reAdd r !! k) -> is_Some (reAdd (RunningOps.run r ops) !! k).
Proof.
  unfold RunningOps.run. revert r.
  induction ops as [|o ops IH]; intros r Hk; simpl; [exact Hk|].
  apply IH. now apply apply_keeps_reAdd.
Qed.

End RunningSet.

Section RunningSetClaims.
Import runningEventsStatus.

(** C2.  [removeSchemaEvents] on the running set (the specification's
    [clearDatabase]) leaves the status map as it was, removes no key of
    the re-add map, and for every event [evName] of [dbName] that has an
    entry, the entry is still found afterwards, with the same running
    status and with [reAdd = false]. *)
Theorem clearDatabase_keeps_running_entries (r : t) (dbName : string) :
  status (removeSchemaEvents r dbName) = status r /\
  (forall k,
     is_Some (reAdd r !! k) ->
     is_Some (reAdd (removeSchemaEvents r dbName) !! k)) /\
  (forall evName s,
     status r !! (dbName ++ "." ++ evName) = Some s ->
     getStatus (removeSchemaEvents r dbName) (dbName ++ "." ++ evName)
     = (s, true) /\
     getReAdd (removeSchemaEvents r dbName) (dbName ++ "." ++ evName)
     = (false, true)).
Proof.
  destruct (removeSchemaEvents_effect r dbName) as [Hs Hr].
  split; [exact Hs|]. split.
  - intros k Hk. rewrite Hr. destruct (_ && _); eauto.
  - intros evName s Hk. unfold getStatus, getReAdd. rewrite Hs. split.
    + now apply map_get_Some.
    + apply map_get_Some. rewrite Hr, Hk.
      rewrite bool_decide_eq_true_2 by eauto.
      now rewrite <- append_assoc, HasPrefix_append.
Qed.

Lemma clearDatabase_keeps_running_entries_witness :
  let r := update newRunningEventsStatus "db.ev" true true in
  getStatus (removeSchemaEvents r "db") ("db" ++ "." ++ "ev") = (true, true) /\
  getReAdd (removeSchemaEvents r "db") ("db" ++ "." ++ "ev") = (false, true).
Proof.
  intros r.
  apply (clearDatabase_keeps_running_entries r "db").
  reflexivity.
Defined.

(** C3.  [clear] reports every key absent from the status map, but the
    re-add map is returned as it was: after [update("db.ev", true, true)]
    and [clear], [getReAdd("db.ev")] is still [(true, true)]. *)
Theorem clear_leaves_reAdd :
  (forall r key,
     getStatus (clear r) key = (false, false) /\
     getReAdd (clear r) key = getReAdd r key) /\
  getReAdd (clear (update newRunningEventsStatus "db.ev" true true)) "db.ev"
  = (true, true).
Proof.
  assert (H : forall r key,
             getStatus (clear r) key = (false, false) /\
             getReAdd (clear r) key = getReAdd r key).
  { intros r key. destruct (clear_effect r) as [Hs Hr].
    unfold getStatus, getReAdd. rewrite Hs, Hr. split; [|reflexivity].
    apply map_get_None, lookup_empty. }
  split; [exact H|].
  destruct (H (update newRunningEventsStatus "db.ev" true true) "db.ev")
    as [_ ->].
  unfold getReAdd, update. cbn [reAdd].
  apply map_get_Some, lookup_insert_eq.
Qed.

(** C9.  [remove] touches the status map only: after [update(key, s, ra)]
    and [remove(key)], [getStatus(key)] reports the key absent and
    [getReAdd(key)] returns [(ra, true)]; the re-add map is the one
    [update] left, and whatever calls follow, [getReAdd(key)] keeps
    reporting the key present. *)
Theorem remove_keeps_reAdd (r : t) (key : string) (s ra : bool) :
  getStatus (remove (update r key s ra) key) key = (false, false) /\
  getReAdd (remove (update r key s ra) key) key = (ra, true) /\
  reAdd (remove (update r key s ra) key) = reAdd (update r key s ra) /\
  forall ops,
    snd (getReAdd (RunningOps.run (remove (update r key s ra) key) ops) key)
    = true.
Proof.
  assert (Hra : reAdd (remove (update r key s ra) key) !! key = Some ra)
    by (cbn [remove update reAdd]; apply lookup_insert_eq).
  split; [|split; [|split]].
  - unfold getStatus. cbn [remove update status].
    apply map_get_None, lookup_delete_eq.
  - unfold getReAdd. now apply map_get_Some.
  - reflexivity.
  - intros ops.
    destruct (run_keeps_reAdd ops (remove (update r key s ra) key) key)
      as [v Hv]; [eauto|].
    unfold getReAdd. now rewrite (map_get_Some _ _ _ Hv).
Qed.

(** C10.  The running set matches a database by the prefix
    [dbName + "."] of the qualified name, the registry by equality of the
    database name.  For the databases ["db"] and ["db.sub"], clearing
    ["db"] sets [reAdd = false] for a running event of ["db.sub"], while
    removing ["db"] from the registry keeps that event. *)
Theorem prefix_match_crosses_databases :
  (forall r dbName k,
     reAdd (removeSchemaEvents r dbName) !! k
     = if bool_decide (is_Some (status r !! k))
          && HasPrefix k (dbName ++ ".")
       then Some false else reAdd r !! k) /\
  (forall e dbName,
     enabledEventsList.removeSchemaEvents [e] dbName
     = Some (if String.eqb (Name (edb e)) dbName then [] else [e])) /\
  exists (db1 db2 : string) (e : enabledEvent),
    db1 <> db2 /\ Name (edb e) = db2 /\
    getReAdd (update newRunningEventsStatus (name e) true true) (name e)
    = (true, true) /\
    getReAdd
      (removeSchemaEvents
         (update newRunningEventsStatus (name e) true true) db1) (name e)
    = (false, true) /\
    enabledEventsList.removeSchemaEvents [e] db1 = Some [e].
Proof.
  split; [intros r dbName; apply removeSchemaEvents_effect|].
  split.
  { intros e dbName. unfold enabledEventsList.removeSchemaEvents.
    cbn. destruct (String.eqb (Name (edb e)) dbName); reflexivity. }
  exists "db", "db.sub",
    {| edb := {| Name := "db.sub" |};
       eventDetails := {| ed_Name := "ev"; Definer := "root@localhost";
                          Status := "ENABLE"; HasExecuteAt := false;
                          OnCompletionPreserve := false;
                          LastExecuted := 0%Z |};
       nextExecutionAt := 0%Z; username := "root"; address := "localhost" |}.
  split; [discriminate|]. split; [reflexivity|].
  split; [reflexivity|]. split; [|reflexivity].
  unfold getReAdd. apply map_get_Some.
  destruct (removeSchemaEvents_effect
              (update newRunningEventsStatus "db.sub.ev" true true) "db")
    as [_ Hr].
  change (name _) with "db.sub.ev". rewrite Hr. reflexivity.
Qed.

End RunningSetClaims.

(** ** Reconciliation with the catalog *)

Section CatalogClaims.
Variable catalog : Type.
Variable UpdateEvent :
  EventDatabase -> string -> EventDetails -> catalog -> catalog * option error.
Variable DropEvent :
  EventDatabase -> string -> catalog -> catalog * option error.
Variable GetNextExecutionTime :
  EventDetails -> Time -> Time * bool * option error.
Variable EventStatus_Enable EventStatus_Disable : string.

Abbreviation after_execution :=
  (updateEventAfterExecution catalog UpdateEvent DropEvent
     GetNextExecutionTime EventStatus_Disable).
Abbreviation from_details :=
  (newEnabledEventFromEventDetails catalog UpdateEvent DropEvent
     GetNextExecutionTime EventStatus_Enable EventStatus_Disable).

(** C6.  For a one-shot event ([HasExecuteAt]), [updateEventAfterExecution]
    returns [ended = true] and leaves [nextExecutionAt] as it was.  With
    [OnCompletionPreserve] the catalog is changed by one [UpdateEvent] call,
    under the event's name, with the definition whose status is the
    disabled one and whose [LastExecuted] is [executionTime]; otherwise it
    is changed by one [DropEvent] call under the event's name.  The error
    returned is the error of that call. *)
Theorem one_shot_event_ends (e : enabledEvent) (c : catalog)
    (db : EventDatabase) (executionTime now : Time) :
  HasExecuteAt (eventDetails e) = true ->
  let '(e', (ended, err), c') := after_execution e c db executionTime now in
  ended = true /\
  nextExecutionAt e' = nextExecutionAt e /\
  if OnCompletionPreserve (eventDetails e) then
    (c', err)
    = UpdateEvent db (ed_Name (eventDetails e))
        (preserved_details EventStatus_Disable e executionTime) c /\
    eventDetails e' = preserved_details EventStatus_Disable e executionTime /\
    Status (preserved_details EventStatus_Disable e executionTime) = EventStatus_Disable /\
    LastExecuted (preserved_details EventStatus_Disable e executionTime) = executionTime
  else
    (c', err) = DropEvent db (ed_Name (eventDetails e)) c /\ e' = e.
Proof.
  intros Hone. unfold updateEventAfterExecution, preserved_details.
  rewrite Hone.
  destruct (OnCompletionPreserve (eventDetails e)); cbn.
  - destruct (UpdateEvent _ _ _ _) as [c' [err|]]; cbn; repeat split.
  - destruct (DropEvent _ _ _) as [c' [err|]]; cbn; repeat split.
Qed.

(** C7, as the code has it.  [newEnabledEventFromEventDetails]:
    - with a status other than the enabled one: no event, no error, the
      catalog untouched;
    - enabled, and [GetNextExecutionTime] fails: its error, no event, the
      catalog untouched;
    - enabled, not ended, and the definer parses: the event built from the
      definition, the next execution time and the parsed user and host,
      the catalog untouched;
    - enabled, not ended, and the definer does not parse: the parse error
      and no event, the catalog untouched;
    - enabled, ended, preserved: one [UpdateEvent] call with the status set
      to the disabled one, no event;
    - enabled, ended, not preserved: one [DropEvent] call, no event. *)
Theorem catalog_load_cases (c : catalog) (db : EventDatabase)
    (ed : EventDetails) (curTime : Time) :
  (Status ed <> EventStatus_Enable ->
   from_details c db ed curTime = (None, false, None, c)) /\
  (Status ed = EventStatus_Enable ->
   forall t ended err,
     GetNextExecutionTime ed curTime = (t, ended, Some err) ->
     from_details c db ed curTime = (None, false, Some err, c)) /\
  (Status ed = EventStatus_Enable ->
   forall t, GetNextExecutionTime ed curTime = (t, false, None) ->
   forall u a,
     getUsernameAndAddressFromDefiner (Definer ed) = Ok (u, a) ->
     from_details c db ed curTime
     = (Some {| edb := db; eventDetails := ed; nextExecutionAt := t;
                username := u; address := a |}, true, None, c)) /\
  (Status ed = EventStatus_Enable ->
   forall t, GetNextExecutionTime ed curTime = (t, false, None) ->
   forall err,
     getUsernameAndAddressFromDefiner (Definer ed) = Err err ->
     from_details c db ed curTime = (None, false, Some err, c)) /\
  (Status ed = EventStatus_Enable ->
   forall t, GetNextExecutionTime ed curTime = (t, true, None) ->
   OnCompletionPreserve ed = true ->
   from_details c db ed curTime
   = (None, false,
      snd (UpdateEvent db (ed_Name ed) (set_Status ed EventStatus_Disable) c),
      fst (UpdateEvent db (ed_Name ed) (set_Status ed EventStatus_Disable) c))) /\
  (Status ed = EventStatus_Enable ->
   forall t, GetNextExecutionTime ed curTime = (t, true, None) ->
   OnCompletionPreserve ed = false ->
   from_details c db ed curTime
   = (None, false,
      snd (DropEvent db (ed_Name ed) c), fst (DropEvent db (ed_Name ed) c))).
Proof.
  unfold newEnabledEventFromEventDetails.
  repeat split.
  - intros Hs. apply String.eqb_neq in Hs. now rewrite Hs.
  - intros Hs t ended err Hn. apply String.eqb_eq in Hs. now rewrite Hs, Hn.
  - intros Hs t Hn u a Hp. apply String.eqb_eq in Hs.
    now rewrite Hs, Hn, Hp.
  - intros Hs t Hn err Hp. apply String.eqb_eq in Hs.
    now rewrite Hs, Hn, Hp.
  - intros Hs t Hn Hp. apply String.eqb_eq in Hs. rewrite Hs, Hn, Hp. cbn.
    destruct (UpdateEvent _ _ _ _) as [c' [err|]]; reflexivity.
  - intros Hs t Hn Hp. apply String.eqb_eq in Hs. rewrite Hs, Hn, Hp. cbn.
    destruct (DropEvent _ _ _) as [c' [err|]]; reflexivity.
Qed.

End CatalogClaims.

Section CatalogExamples.
Import MemCatalog Samples.

Abbreviation mem_after_execution :=
  (updateEventAfterExecution catalog UpdateEvent DropEvent
     GetNextExecutionTime "DISABLE").
Abbreviation mem_from_details :=
  (newEnabledEventFromEventDetails catalog UpdateEvent DropEvent
     GetNextExecutionTime "ENABLE" "DISABLE").

Lemma one_shot_event_ends_witness :
  let e := one_shot "ev" true 5000000000%Z in
  let c : catalog := {[ "ev" := eventDetails e ]} in
  let db := {| Name := "mydb" |} in
  let '(e', (ended, err), c') :=
    mem_after_execution e c db 5000000000%Z 5000000001%Z in
  ended = true /\
  nextExecutionAt e' = nextExecutionAt e /\
  if OnCompletionPreserve (eventDetails e) then
    (c', err)
    = UpdateEvent db (ed_Name (eventDetails e))
        (preserved_details "DISABLE" e 5000000000%Z) c /\
    eventDetails e' = preserved_details "DISABLE" e 5000000000%Z /\
    Status (preserved_details "DISABLE" e 5000000000%Z) = "DISABLE" /\
    LastExecuted (preserved_details "DISABLE" e 5000000000%Z) = 5000000000%Z
  else
    (c', err) = DropEvent db (ed_Name (eventDetails e)) c /\ e' = e.
Proof.
  intros e c db.
  apply (one_shot_event_ends catalog UpdateEvent DropEvent
           GetNextExecutionTime "DISABLE" e c db).
  reflexivity.
Defined.

(** C7, the case the claim leaves out: an enabled definition whose schedule
    has not ended, with the definer [root] (no [@]), yields no event but the
    invalid-definer error. *)
Lemma catalog_load_invalid_definer :
  let ed := details "ev" "root" false false in
  let c : catalog := {[ "ev" := ed ]} in
  Status ed = "ENABLE" /\
  GetNextExecutionTime ed 0%Z = (Second, false, None) /\
  mem_from_details c {| Name := "mydb" |} ed 0%Z
  = (None, false, Some "invalid definer for the event", c).
Proof. repeat split. Qed.

Lemma catalog_load_cases_witness :
  let ed := details "ev" "`root`@`localhost`" false false in
  let bad := details "ev" "root" false false in
  let db := {| Name := "mydb" |} in
  mem_from_details ∅ db ed 0%Z
  = (Some {| edb := db; eventDetails := ed; nextExecutionAt := Second;
             username := "root"; address := "localhost" |}, true, None, ∅) /\
  mem_from_details ∅ db bad 0%Z
  = (None, false, Some "invalid definer for the event", ∅).
Proof.
  intros ed bad db. split.
  - destruct (catalog_load_cases catalog UpdateEvent DropEvent
                GetNextExecutionTime "ENABLE" "DISABLE" ∅ db ed 0%Z)
      as (_ & _ & Hbuilt & _).
    apply (Hbuilt eq_refl Second); reflexivity.
  - destruct (catalog_load_cases catalog UpdateEvent DropEvent
                GetNextExecutionTime "ENABLE" "DISABLE" ∅ db bad 0%Z)
      as (_ & _ & _ & Hbad & _).
    apply (Hbad eq_refl Second); reflexivity.
Defined.

End CatalogExamples.

(** ** The registry *)

Section Registry.
Import enabledEventsList Samples.

Lemma ordered_cons (e : enabledEvent) (l : list enabledEvent) :
  ordered (e :: l) = true <->
  Forall (fun x => (nextExecutionAt e <= nextExecutionAt x)%Z) l /\
  ordered l = true.
Proof.
  revert e. induction l as [|y l IH]; intros e.
  - cbn. split; [intros _; split; [constructor | reflexivity] | reflexivity].
  - change (ordered (e :: y :: l))
      with ((nextExecutionAt e <=? nextExecutionAt y)%Z && ordered (y :: l)).
    rewrite andb_true_iff, Z.leb_le. split.
    + intros [Hey Hyl]. split; [|exact Hyl].
      constructor; [exact Hey|].
      apply IH in Hyl as [Hall _].
      eapply Forall_impl; [exact Hall|]. cbn. intros x Hx. lia.
    + intros [Hall Hyl]. split; [|exact Hyl]. now inversion Hall.
Qed.

(** Dropping entries keeps the order. *)
Lemma ordered_sublist (l1 l2 : list enabledEvent) :
  sublist l1 l2 -> ordered l2 = true -> ordered l1 = true.
Proof.
  induction 1 as [|x l1 l2 Hsub IH|x l1 l2 Hsub IH]; intros Hord.
  - reflexivity.
  - apply ordered_cons in Hord as [Hall Hord]. apply ordered_cons. split.
    + rewrite Forall_forall in Hall |- *. intros y Hy.
      apply Hall. eapply sublist_subseteq; eauto.
    + auto.
  - apply ordered_cons in Hord as [_ Hord]. auto.
Qed.

Lemma remove_sublist (l : list enabledEvent) (key : string) :
  sublist (remove l key) l.
Proof.
  induction l as [|e l IH]; cbn; [constructor|].
  destruct (String.eqb (name e) key).
  - now apply sublist_cons.
  - now apply sublist_skip.
Qed.

(** [pop] and [remove] keep an ordered list ordered. *)
Lemma pop_remove_keep_order (l : list enabledEvent) (key : string) :
  ordered l = true ->
  ordered (snd (pop l)) = true /\ ordered (remove l key) = true.
Proof.
  intros Hord. split.
  - destruct l as [|e l]; [reflexivity|]. cbn.
    now apply ordered_cons in Hord as [_ Hord].
  - eapply ordered_sublist; [apply remove_sublist | exact Hord].
Qed.

(** *** [removeSchemaEvents] on the registry, when it returns *)

Lemma cut_Some (i : nat) (s s' : slice) :
  cut i s = Some s' ->
  (i + 1 <= cur_len s)%nat /\
  backing s' = (take i (backing s)
                ++ take (cur_len s - (i + 1)) (drop (i + 1) (backing s))
                ++ drop (cur_len s - 1) (backing s))%list /\
  cur_len s' = (cur_len s - 1)%nat.
Proof.
  unfold cut. destruct (i + 1 <=? cur_len s)%nat eqn:Hle; [|discriminate].
  intros [= <-]. apply Nat.leb_le in Hle. auto.
Qed.

Lemma cut_length (i : nat) (s s' : slice) :
  cut i s = Some s' -> (cur_len s <= length (backing s))%nat ->
  length (backing s') = length (backing s).
Proof.
  intros Hcut Hm. destruct (cut_Some _ _ _ Hcut) as (Hi & -> & _).
  rewrite !length_app, !length_take, !length_drop. lia.
Qed.

(** The places of the backing array after a cut at [i]. *)
Lemma cut_lookup (i j : nat) (s s' : slice) :
  cut i s = Some s' -> (cur_len s <= length (backing s))%nat ->
  backing s' !! j
  = if decide (j < i)%nat then backing s !! j
    else if decide (j < cur_len s - 1)%nat then backing s !! S j
         else backing s !! j.
Proof.
  intros Hcut Hm. destruct (cut_Some _ _ _ Hcut) as (Hi & -> & _).
  assert (Hl1 : length (take i (backing s)) = i)
    by (rewrite length_take; lia).
  assert (Hl2 : length (take (cur_len s - (i + 1))
                          (drop (i + 1) (backing s)))
                = (cur_len s - (i + 1))%nat)
    by (rewrite length_take, length_drop; lia).
  destruct (decide (j < i)%nat) as [Hji|Hji].
  - rewrite lookup_app_l by lia. now apply lookup_take_lt.
  - rewrite lookup_app_r by lia. rewrite Hl1.
    destruct (decide (j < cur_len s - 1)%nat) as [Hjm|Hjm].
    + rewrite lookup_app_l by lia.
      rewrite lookup_take_lt by lia. rewrite lookup_drop.
      f_equal. lia.
    + rewrite lookup_app_r by lia. rewrite Hl2, lookup_drop.
      f_equal. lia.
Qed.

Lemma cut_take (i : nat) (s s' : slice) :
  cut i s = Some s' -> (cur_len s <= length (backing s))%nat ->
  take i (backing s') = take i (backing s).
Proof.
  intros Hcut Hm. destruct (cut_Some _ _ _ Hcut) as (Hi & -> & _).
  apply take_app_length'. rewrite length_take. lia.
Qed.

Lemma loop_invariant_start (L : list enabledEvent) (dbName : string) :
  loop_invariant L dbName 0 {| backing := L; cur_len := length L |}.
Proof.
  unfold loop_invariant. cbn [backing cur_len].
  rewrite Nat.sub_diag. cbn [Nat.min Nat.add take].
  repeat split; try reflexivity; try constructor.
  intros j _ Hj. f_equal. lia.
Qed.

(** A round that does not cut. *)
Lemma loop_invariant_keep (L : list enabledEvent) (dbName : string)
    (i : nat) (s : slice) (e : enabledEvent) :
  (i < length L)%nat ->
  loop_invariant L dbName i s ->
  backing s !! i = Some e ->
  loop_invariant L dbName (S i) s.
Proof.
  intros Hi (Hlen & Hm & Hsub & Hfil & Hshift) He.
  unfold loop_invariant. split; [exact Hlen|]. split; [exact Hm|].
  specialize (Hshift i (Nat.le_refl i) Hi) as HLi. rewrite He in HLi.
  destruct (decide (i < cur_len s)%nat) as [Him|Him].
  - replace (Nat.min (S i) (cur_len s)) with (S i) by lia.
    replace (Nat.min i (cur_len s)) with i in Hsub, Hfil by lia.
    replace (Nat.min (i + (length L - cur_len s)) (length L - 1))
      with (i + (length L - cur_len s))%nat in HLi by lia.
    rewrite (take_S_r _ _ _ He).
    change (S i + (length L - cur_len s))%nat
      with (S (i + (length L - cur_len s))).
    rewrite (take_S_r _ _ e) by (symmetry; exact HLi).
    split; [now apply sublist_app|].
    split; [now rewrite !filter_app, Hfil|].
    intros j Hj. apply Hshift. lia.
  - replace (Nat.min (S i) (cur_len s)) with (Nat.min i (cur_len s)) by lia.
    split; [exact Hsub|]. split; [exact Hfil|].
    intros j Hj. apply Hshift. lia.
Qed.

(** A round that cuts: the entry at [i] belongs to [dbName]. *)
Lemma loop_invariant_cut (L : list enabledEvent) (dbName : string)
    (i : nat) (s s' : slice) (e : enabledEvent) :
  (i < length L)%nat ->
  loop_invariant L dbName i s ->
  backing s !! i = Some e ->
  Name (edb e) = dbName ->
  cut i s = Some s' ->
  loop_invariant L dbName (S i) s'.
Proof.
  intros Hi (Hlen & Hm & Hsub & Hfil & Hshift) He Hdb Hcut.
  assert (Hm' : (cur_len s <= length (backing s))%nat) by lia.
  destruct (cut_Some _ _ _ Hcut) as (Hic & _ & Hcl).
  pose proof (cut_length _ _ _ Hcut Hm') as Hlen'.
  pose proof (cut_take _ _ _ Hcut Hm') as Htake.
  replace (Nat.min i (cur_len s)) with i in Hsub, Hfil by lia.
  specialize (Hshift i (Nat.le_refl i) Hi) as HLi. rewrite He in HLi.
  replace (Nat.min (i + (length L - cur_len s)) (length L - 1))
    with (i + (length L - cur_len s))%nat in HLi by lia.
  assert (Hnot : ~ other_database dbName e)
    by (unfold other_database; intros H; now apply H).
  unfold loop_invariant. rewrite Hcl.
  split; [lia|]. split; [lia|].
  replace (length L - (cur_len s - 1))%nat
    with (S (length L - cur_len s)) by lia.
  split; [|split].
  - destruct (decide (S i < cur_len s)%nat) as [Hlt|Hlt].
    + replace (Nat.min (S i) (cur_len s - 1)) with (S i) by lia.
      pose proof (cut_lookup i i _ _ Hcut Hm') as Hx.
      rewrite decide_False in Hx by lia.
      rewrite decide_True in Hx by lia.
      destruct (backing s !! S i) as [x|] eqn:Hsi.
      2:{ apply lookup_ge_None in Hsi. lia. }
      pose proof (Hshift (S i) (Nat.le_succ_diag_r i) ltac:(lia)) as HLx.
      rewrite Hsi in HLx.
      replace (Nat.min (S i + (length L - cur_len s)) (length L - 1))
        with (S (i + (length L - cur_len s))) in HLx by lia.
      rewrite (take_S_r _ _ _ Hx), Htake.
      replace (S i + S (length L - cur_len s))%nat
        with (S (S (i + (length L - cur_len s)))) by lia.
      rewrite (take_S_r _ _ x) by (symmetry; exact HLx).
      rewrite (take_S_r _ _ e) by (symmetry; exact HLi).
      rewrite <- app_assoc. apply sublist_app; [exact Hsub|].
      apply sublist_inserts_l. reflexivity.
    + replace (Nat.min (S i) (cur_len s - 1)) with i by lia.
      rewrite Htake.
      replace (i + S (length L - cur_len s))%nat
        with (S (i + (length L - cur_len s))) by lia.
      rewrite (take_S_r _ _ e) by (symmetry; exact HLi).
      now apply sublist_inserts_r.
  - destruct (decide (S i < cur_len s)%nat) as [Hlt|Hlt].
    + replace (Nat.min (S i) (cur_len s - 1)) with (S i) by lia.
      pose proof (cut_lookup i i _ _ Hcut Hm') as Hx.
      rewrite decide_False in Hx by lia.
      rewrite decide_True in Hx by lia.
      destruct (backing s !! S i) as [x|] eqn:Hsi.
      2:{ apply lookup_ge_None in Hsi. lia. }
      pose proof (Hshift (S i) (Nat.le_succ_diag_r i) ltac:(lia)) as HLx.
      rewrite Hsi in HLx.
      replace (Nat.min (S i + (length L - cur_len s)) (length L - 1))
        with (S (i + (length L - cur_len s))) in HLx by lia.
      rewrite (take_S_r _ _ _ Hx), Htake.
      replace (S i + S (length L - cur_len s))%nat
        with (S (S (i + (length L - cur_len s)))) by lia.
      rewrite (take_S_r _ _ x) by (symmetry; exact HLx).
      rewrite (take_S_r _ _ e) by (symmetry; exact HLi).
      rewrite !filter_app, Hfil.
      rewrite (filter_cons_False _ e []) by exact Hnot.
      rewrite filter_nil, app_nil_r. reflexivity.
    + replace (Nat.min (S i) (cur_len s - 1)) with i by lia.
      rewrite Htake.
      replace (i + S (length L - cur_len s))%nat
        with (S (i + (length L - cur_len s))) by lia.
      rewrite (take_S_r _ _ e) by (symmetry; exact HLi).
      rewrite filter_app, Hfil.
      rewrite (filter_cons_False _ e []) by exact Hnot.
      rewrite filter_nil, app_nil_r. reflexivity.
  - intros j Hij Hj.
    rewrite (cut_lookup i j _ _ Hcut Hm').
    rewrite decide_False by lia.
    destruct (decide (j < cur_len s - 1)%nat) as [Hjm|Hjm].
    + rewrite Hshift by lia. f_equal. lia.
    + rewrite Hshift by lia. f_equal. lia.
Qed.

Lemma range_from_invariant (L : list enabledEvent) (dbName : string)
    (todo i : nat) (s s' : slice) :
  (i + todo = length L)%nat ->
  loop_invariant L dbName i s ->
  range_from dbName i todo s = Some s' ->
  loop_invariant L dbName (length L) s'.
Proof.
  revert i s. induction todo as [|todo IH]; intros i s Hn Hinv; cbn.
  - intros [= <-]. now replace (length L) with i by lia.
  - destruct (backing s !! i) as [e|] eqn:He; [|discriminate].
    destruct (String.eqb (Name (edb e)) dbName) eqn:Hdb.
    + destruct (cut i s) as [s1|] eqn:Hcut; [|discriminate].
      apply String.eqb_eq in Hdb.
      apply IH; [lia|].
      eapply loop_invariant_cut; eauto. lia.
    + apply IH; [lia|].
      eapply loop_invariant_keep; eauto. lia.
Qed.

(** When [removeSchemaEvents] returns, what it leaves is the list with
    some entries dropped, and no entry of another database is among the
    dropped ones: those are all kept, in their order. *)
Lemma removeSchemaEvents_keeps_others (L L' : list enabledEvent)
    (dbName : string) :
  removeSchemaEvents L dbName = Some L' ->
  sublist L' L /\
  filter (other_database dbName) L' = filter (other_database dbName) L.
Proof.
  unfold removeSchemaEvents.
  destruct (range_from _ _ _ _) as [s'|] eqn:Hrun; [|discriminate].
  intros [= <-].
  destruct (range_from_invariant L dbName (length L) 0 _ s' eq_refl
              (loop_invariant_start L dbName) Hrun)
    as (Hlen & Hm & Hsub & Hfil & _).
  replace (Nat.min (length L) (cur_len s')) with (cur_len s')
    in Hsub, Hfil by lia.
  replace (cur_len s' + (length L - cur_len s'))%nat
    with (length L) in Hsub, Hfil by lia.
  rewrite firstn_all in Hsub, Hfil. auto.
Qed.

(** So an ordered registry stays ordered when [removeSchemaEvents]
    returns. *)
Lemma removeSchemaEvents_keeps_order (L L' : list enabledEvent)
    (dbName : string) :
  removeSchemaEvents L dbName = Some L' ->
  ordered L = true -> ordered L' = true.
Proof.
  intros Hrun. apply ordered_sublist.
  now apply (removeSchemaEvents_keeps_others _ _ _ Hrun).
Qed.

(** *** [add] then [remove], up to order *)

Lemma add_perm (l : list enabledEvent) (e : enabledEvent) :
  add l e ≡ₚ e :: l.
Proof.
  unfold add. rewrite SliceStable_perm.
  symmetry. apply Permutation_cons_append.
Qed.

Lemma newEnabledEventsList_perm (l : list enabledEvent) :
  newEnabledEventsList l ≡ₚ l.
Proof. apply SliceStable_perm. Qed.

(** [remove] takes out one entry named [key] when there is one. *)
Lemma remove_present (l : list enabledEvent) (key : string) :
  (exists x, x ∈ l /\ name x = key) ->
  exists x, name x = key /\ l ≡ₚ x :: remove l key.
Proof.
  induction l as [|y l IH]; intros (x & Hx & Hname).
  - now apply elem_of_nil in Hx.
  - cbn. destruct (String.eqb (name y) key) eqn:Hy.
    + apply String.eqb_eq in Hy. now exists y.
    + apply elem_of_cons in Hx as [->|Hx].
      * apply String.eqb_neq in Hy. contradiction.
      * destruct IH as (z & Hz & Hperm); [eauto|].
        exists z. split; [exact Hz|].
        now rewrite Hperm at 1; rewrite Permutation_swap.
Qed.

(** For an event whose name is not in the registry, [add] followed by
    [remove] of that name gives back the same entries, in some order, so
    the registry has its prior size. *)
Lemma add_remove_same_entries (L : list enabledEvent) (e : enabledEvent) :
  Forall (fun x => name x <> name e) L ->
  remove (add L e) (name e) ≡ₚ L /\
  len (remove (add L e) (name e)) = len L.
Proof.
  intros Hfresh.
  assert (Hperm : remove (add L e) (name e) ≡ₚ L).
  { destruct (remove_present (add L e) (name e)) as (x & Hx & Hperm).
    { exists e. split; [|reflexivity]. rewrite add_perm. left. }
    assert (Hin : x ∈ e :: L).
    { rewrite <- add_perm, Hperm. left. }
    apply elem_of_cons in Hin as [->|Hin].
    - apply (Permutation_cons_inv (a := e)).
      etrans; [symmetry; exact Hperm | apply add_perm].
    - rewrite Forall_forall in Hfresh. now apply Hfresh in Hin. }
  split; [exact Hperm|]. unfold len. now rewrite Hperm.
Qed.

(** *** Events less than a second apart *)

Lemma less_within_a_second (x y : enabledEvent) :
  (nextExecutionAt x - nextExecutionAt y < Second)%Z -> less x y = true.
Proof.
  intros Hd. unfold less, Seconds_lt_1, Sub.
  assert (Hmax : (Second < maxDuration)%Z) by reflexivity.
  destruct (Z.ltb_spec (nextExecutionAt x - nextExecutionAt y) minDuration);
    [reflexivity|].
  destruct (Z.ltb_spec maxDuration (nextExecutionAt x - nextExecutionAt y));
    [lia|].
  now apply Z.ltb_lt.
Qed.

(** On a registry of one event, [add] of an event due later, but less than
    a second later, puts the new event first. *)
Lemma add_swaps_close_events (a b : enabledEvent) :
  (nextExecutionAt a < nextExecutionAt b)%Z ->
  (nextExecutionAt b - nextExecutionAt a < Second)%Z ->
  add [a] b = [b; a] /\ ordered (add [a] b) = false.
Proof.
  intros Hlt Hclose.
  assert (Hadd : add [a] b = [b; a]).
  { unfold add, GoSort.SliceStable, GoSort.stable_func.
    cbn -[less]. unfold GoSort.insertionSort_func. cbn -[less].
    unfold GoSort.Less. cbn -[less].
    now rewrite (less_within_a_second b a Hclose). }
  split; [exact Hadd|]. rewrite Hadd. cbn.
  rewrite andb_true_r. apply Z.leb_gt. exact Hlt.
Qed.

(** C1.  Two events half a second apart: adding the later one to a
    registry that holds the earlier one puts the later one at the head, so
    the registry built by [newEnabledEventsList] and two [add] calls is not
    ordered by [nextExecutionAt], and neither is [newEnabledEventsList] of
    the two. *)
Theorem add_breaks_order :
  let a := recurring "mydb" "a" 3000000000%Z in
  let b := recurring "mydb" "b" 3500000000%Z in
  add (add (newEnabledEventsList []) a) b = [b; a] /\
  ordered (add (add (newEnabledEventsList []) a) b) = false /\
  getNextExecutionTime (add (add (newEnabledEventsList []) a) b)
  = (3500000000%Z, true) /\
  newEnabledEventsList [a; b] = [b; a].
Proof. vm_compute. repeat split. Qed.

(** C4.  With two events of [mydb] next to each other and one of another
    database after them, [removeSchemaEvents "mydb"] skips the second event
    of [mydb], which stays in the list; with the two events of [mydb]
    alone, the call panics on its slice bounds. *)
Theorem removeSchemaEvents_skips_neighbour :
  let a := recurring "mydb" "a" 1000000000%Z in
  let b := recurring "mydb" "b" 2000000000%Z in
  let c := recurring "other" "c" 3000000000%Z in
  removeSchemaEvents [a; b; c] "mydb" = Some [b; c] /\
  Name (edb b) = "mydb" /\
  removeSchemaEvents [a; b] "mydb" = None.
Proof. vm_compute. repeat split. Qed.

(** C8.  A registry that two [add] calls built from two events due at the
    same second, and a third event with a new name: [add] of the third
    event followed by [remove] of its name returns the two events in the
    other order. *)
Theorem add_remove_reorders :
  let a := recurring "mydb" "a" 3000000000%Z in
  let b := recurring "mydb" "b" 3000000000%Z in
  let e := recurring "mydb" "e" 10000000000%Z in
  let L := add (add (newEnabledEventsList []) a) b in
  L = [b; a] /\
  Forall (fun x => name x <> name e) L /\
  remove (add L e) (name e) = [a; b] /\
  remove (add L e) (name e) <> L.
Proof.
  vm_compute. split; [reflexivity|]. split.
  - repeat constructor; discriminate.
  - split; [reflexivity | discriminate].
Qed.

End Registry.
